(** * A shallow embedding of [main.c]: the [print] token interpreter

    The C program reads a file into a NUL-terminated heap buffer, copies at
    most [MAX_CODE_SIZE] characters of it into a stack array, and walks the
    copy with the C library's [strtok].  Characters are [ascii], memory
    blocks are [list ascii] indexed from the pointer they are reached
    through, and every read outside a block is a fault. *)

From Stdlib Require Import Ascii String ZArith.
From stdpp Require Import base tactics option list strings.

Local Open Scope char_scope.
Local Open Scope list_scope.

(** ** Characters and literals *)

Definition NUL : ascii := "000".
Definition newline : ascii := "010".

(** A C string literal, without its terminator. *)
Definition lit (s : string) : list ascii := list_ascii_of_string s.

(** [#define MAX_CODE_SIZE 1000] *)
Definition MAX_CODE_SIZE : nat := 1000.

(** [const char* delimiter = " \t\n";] *)
Definition delimiter : list ascii := [" "; "009"; "010"].

(** ** Outcomes of a run *)

Inductive result (A : Type) : Type :=
| Done (a : A)
| Fault          (* a read or write outside a memory block *)
| OutOfFuel.       (* the loop bound of the model was exhausted *)
Arguments Done {A} a.
Arguments Fault {A}.
Arguments OutOfFuel {A}.

(** ** The C library functions the program calls

    Each function receives the memory block that starts at its pointer
    argument.  Running off the end of the block yields [None]. *)
Module Libc.

(** [strlen(s)] *)
Fixpoint strlen (s : list ascii) : option nat :=
  match s with
  | [] => None
  | c :: s' => if decide (c = NUL) then Some 0 else S <$> strlen s'
  end.

(** The characters of the C string at [s], as [printf("%s")] reads them. *)
Fixpoint c_str (s : list ascii) : option (list ascii) :=
  match s with
  | [] => None
  | c :: s' => if decide (c = NUL) then Some [] else (c ::.) <$> c_str s'
  end.

(** [strncpy(dst, src, n)]: the [n] characters written to [dst]. *)
Fixpoint strncpy (src : list ascii) (n : nat) : option (list ascii) :=
  match n with
  | 0 => Some []
  | S n' =>
      match src with
      | [] => None
      | c :: src' =>
          if decide (c = NUL) then Some (replicate (S n') NUL)
          else (c ::.) <$> strncpy src' n'
      end
  end.

(** [strspn(s, accept)] *)
Fixpoint strspn (s accept : list ascii) : option nat :=
  match s with
  | [] => None
  | c :: s' =>
      if decide (c = NUL) then Some 0
      else if decide (c ∈ accept) then S <$> strspn s' accept
      else Some 0
  end.

(** [strcspn(s, reject)] *)
Fixpoint strcspn (s reject : list ascii) : option nat :=
  match s with
  | [] => None
  | c :: s' =>
      if decide (c = NUL) then Some 0
      else if decide (c ∈ reject) then Some 0
      else S <$> strcspn s' reject
  end.

(** [strcmp(s1, s2)]: the difference of the first two characters that
    differ, as unsigned chars; 0 when both strings end together. *)
Fixpoint strcmp (s1 s2 : list ascii) : option Z :=
  match s1, s2 with
  | c1 :: r1, c2 :: r2 =>
      if decide (c1 = c2) then
        if decide (c1 = NUL) then Some 0%Z else strcmp r1 r2
      else Some (Z.of_nat (nat_of_ascii c1) - Z.of_nat (nat_of_ascii c2))%Z
  | _, _ => None
  end.

End Libc.

(** ** The state [interpret] works on *)

Record state : Type := mkState {
  code_copy : list ascii;      (* char code_copy[MAX_CODE_SIZE] *)
  save_ptr  : option nat;      (* strtok's static pointer, an index into code_copy *)
  stdout    : list ascii;
  stderr    : list ascii
}.

Definition M (A : Type) : Type := state → result (A * state).

Definition ret {A} (a : A) : M A := λ σ, Done (a, σ).

Definition bind {A B} (k : A → M B) (m : M A) : M B := λ σ,
  match m σ with
  | Done (a, σ') => k a σ'
  | Fault => Fault
  | OutOfFuel => OutOfFuel
  end.

#[global] Instance M_ret : MRet M := @ret.
#[global] Instance M_bind : MBind M := @bind.

(** A library call that reads the block starting at index [p]. *)
Definition reading {A} (p : nat) (f : list ascii → option A) : M A := λ σ,
  match f (drop p (code_copy σ)) with
  | Some a => Done (a, σ)
  | None => Fault
  end.

(** [*p] *)
Definition load (p : nat) : M ascii := λ σ,
  match code_copy σ !! p with
  | Some c => Done (c, σ)
  | None => Fault
  end.

(** [*p = c] *)
Definition store (p : nat) (c : ascii) : M unit := λ σ,
  if decide (p < length (code_copy σ))
  then Done (tt, mkState (<[p := c]> (code_copy σ)) (save_ptr σ) (stdout σ) (stderr σ))
  else Fault.

Definition set_save (p : nat) : M unit := λ σ,
  Done (tt, mkState (code_copy σ) (Some p) (stdout σ) (stderr σ)).

Definition put_stdout (s : list ascii) : M unit := λ σ,
  Done (tt, mkState (code_copy σ) (save_ptr σ) (stdout σ ++ s) (stderr σ)).

Definition put_stderr (s : list ascii) : M unit := λ σ,
  Done (tt, mkState (code_copy σ) (save_ptr σ) (stdout σ) (stderr σ ++ s)).

(** The C library's [strtok(s, delim)], with [s = None] for a null first
    argument.  The pointer defaults to the saved one; leading delimiters
    are skipped; at the terminator there is no token; otherwise the token
    runs up to the next delimiter, which is overwritten with NUL, and the
    search resumes after it on the next call. *)
Definition strtok (s : option nat) (delim : list ascii) : M (option nat) := λ σ,
  match (match s with Some p => Some p | None => save_ptr σ end) with
  | None => Fault
  | Some p =>
      (n ← reading p (λ b, Libc.strspn b delim);
       let tok := p + n in
       c ← load tok;
       if decide (c = NUL) then set_save tok ;; ret None
       else
         m ← reading tok (λ b, Libc.strcspn b delim);
         let e := tok + m in
         c' ← load e;
         if decide (c' = NUL) then set_save e ;; ret (Some tok)
         else store e NUL ;; set_save (S e) ;; ret (Some tok)) σ
  end.

(** [strcmp(token, "print")] *)
Definition strcmp_print (token : nat) : M Z :=
  reading token (λ b, Libc.strcmp b (lit "print" ++ [NUL])).

(** [printf("Printed: %s\n", token)] *)
Definition printf_Printed (token : nat) : M unit :=
  s ← reading token Libc.c_str;
  put_stdout (lit "Printed: " ++ s ++ [newline]).

Definition missing_argument : list ascii :=
  lit "Error: Missing argument for print" ++ [newline].

(** Lines 15-26: the [while (token != NULL)] loop, entered with the
    current value of [token]; [fuel] bounds the iterations. *)
Fixpoint while_token (fuel : nat) (token : option nat) : M unit :=
  match token with
  | None => ret tt
  | Some tok =>
      match fuel with
      | 0 => λ _, OutOfFuel
      | S fuel' =>
          c ← strcmp_print tok;
          (if decide (c = 0%Z) then
             (arg ← strtok None delimiter;
              match arg with
              | Some a => printf_Printed a
              | None => put_stderr missing_argument
              end)
           else ret tt) ;;
          next ← strtok None delimiter;
          while_token fuel' next
      end
  end.

(** Lines 14-26: the first [strtok(code_copy, delimiter)], then the loop. *)
Definition scan (fuel : nat) : M unit :=
  token ← strtok (Some 0) delimiter;
  while_token fuel token.

(** Lines 10-12: [strncpy] fills [code_copy], then its last character is
    set to NUL. *)
Definition working_copy (code : list ascii) : option (list ascii) :=
  (λ b, <[MAX_CODE_SIZE - 1 := NUL]> b) <$> Libc.strncpy code MAX_CODE_SIZE.

(** What a call leaves on the two streams. *)
Record output : Type := mkOutput {
  on_stdout : list ascii;
  on_stderr : list ascii
}.

Definition initial (buf : list ascii) : state := mkState buf None [] [].

Definition scan_block (fuel : nat) (buf : list ascii) : result output :=
  match scan fuel (initial buf) with
  | Done (_, σ) => Done (mkOutput (stdout σ) (stderr σ))
  | Fault => Fault
  | OutOfFuel => OutOfFuel
  end.

Definition interpret_fuel (fuel : nat) (code : list ascii) : result output :=
  match working_copy code with
  | None => Fault
  | Some buf => scan_block fuel buf
  end.

(** [void interpret(const char* code)].  The loop runs once per token of
    the working copy, so [MAX_CODE_SIZE] iterations are never exhausted
    (see [interpret_fuel_enough]). *)
Definition interpret (code : list ascii) : result output :=
  interpret_fuel MAX_CODE_SIZE code.

(** ** The text a buffer holds, and its tokens

    These definitions describe inputs; the program itself never calls them. *)

(** The characters of [code] before its first NUL. *)
Fixpoint text (code : list ascii) : list ascii :=
  match code with
  | [] => []
  | c :: code' => if decide (c = NUL) then [] else c :: text code'
  end.

(** The part of the text that fits the working copy. *)
Definition scanned (code : list ascii) : list ascii :=
  take (MAX_CODE_SIZE - 1) (text code).

Definition flush (cur : list ascii) : list (list ascii) :=
  match cur with [] => [] | _ => [cur] end.

(** Maximal runs of non-delimiter characters, left to right; [cur] is the
    run being read. *)
Fixpoint tokens_from (cur s : list ascii) : list (list ascii) :=
  match s with
  | [] => flush cur
  | c :: s' =>
      if decide (c ∈ delimiter) then flush cur ++ tokens_from [] s'
      else tokens_from (cur ++ [c]) s'
  end.

Definition tokens (s : list ascii) : list (list ascii) := tokens_from [] s.

(** The algorithm of the specification, on a token sequence: a [print]
    token takes the next token as its argument and prints it, or reports
    that it is missing; any other token is skipped. *)
Fixpoint run_tokens (ts : list (list ascii)) : output :=
  match ts with
  | [] => mkOutput [] []
  | t :: ts' =>
      if decide (t = lit "print") then
        match ts' with
        | [] => mkOutput [] missing_argument
        | x :: ts'' =>
            let o := run_tokens ts'' in
            mkOutput (lit "Printed: " ++ x ++ [newline] ++ on_stdout o) (on_stderr o)
        end
      else run_tokens ts'
  end.

(** Helpers for following [strtok] through a string. *)
Fixpoint skip_delims (s : list ascii) : list ascii :=
  match s with
  | c :: s' => if decide (c ∈ delimiter) then skip_delims s' else s
  | [] => []
  end.

Fixpoint word (s : list ascii) : list ascii :=
  match s with
  | c :: s' => if decide (c ∈ delimiter) then [] else c :: word s'
  | [] => []
  end.

Fixpoint after_word (s : list ascii) : list ascii :=
  match s with
  | c :: s' => if decide (c ∈ delimiter) then s else after_word s'
  | [] => []
  end.

(** The NUL-terminated string [s] sits at index [p] of [mem]. *)
Definition string_at (mem : list ascii) (p : nat) (s : list ascii) : Prop :=
  (NUL ∉ s) ∧ (∃ rest, drop p mem = s ++ NUL :: rest).

(** Scanning [ts] stops right after a [print] that found no argument. *)
Fixpoint awaits_argument (ts : list (list ascii)) : bool :=
  match ts with
  | [] => false
  | t :: ts' =>
      if decide (t = lit "print") then
        match ts' with
        | [] => true
        | _ :: ts'' => awaits_argument ts''
        end
      else awaits_argument ts'
  end.

(** The line [printf("Printed: %s\n", x)] writes. *)
Definition printed_line (x : list ascii) : list ascii :=
  lit "Printed: " ++ x ++ [newline].

(** ** The process: [main] in its environment *)

(** What the C library reports about an opened file. *)
Record file : Type := mkFile {
  file_size : nat;            (* ftell after fseek(file, 0, SEEK_END) *)
  file_data : list ascii      (* the bytes fread can deliver *)
}.

Record world : Type := mkWorld {
  fopen  : list ascii → option file;   (* None: fopen returns NULL *)
  malloc : nat → bool                  (* false: malloc returns NULL *)
}.

(** The calls [main] makes, with their outcome. *)
Inductive call : Type :=
| Fopen (filename : list ascii) (ok : bool)
| Malloc (n : nat) (ok : bool)
| Fread (size got : nat)
| Interpret (code : list ascii)
| Free
| Fclose.

Record exit : Type := mkExit {
  exit_code   : Z;
  proc_stdout : list ascii;
  proc_stderr : list ascii;
  calls       : list call
}.

Definition usage : list ascii :=
  lit "Usage: ./interpreter <filename>" ++ [newline].

Definition open_failed (filename : list ascii) : list ascii :=
  lit "Failed to open the file '" ++ filename ++ lit "'" ++ [newline].

Definition allocation_failed : list ascii :=
  lit "Memory allocation error" ++ [newline].

Definition read_failed (filename : list ascii) : list ascii :=
  lit "Failed to read the file '" ++ filename ++ lit "'" ++ [newline].

(** [int main(int argc, char* argv[])], with [argc = length argv].  The
    branches follow lines 30-33 (usage), 37-41 ([fopen]), 49-54 ([malloc]),
    57-62 ([fread]) and 65-74 (terminate, interpret, clean up). *)
Definition main (w : world) (argv : list (list ascii)) : result exit :=
  if decide (length argv ≠ 2) then Done (mkExit 1 [] usage [])
  else
    match argv !! 1 with
    | None => Fault
    | Some filename =>
        match fopen w filename with
        | None =>
            Done (mkExit 1 [] (open_failed filename) [Fopen filename false])
        | Some f =>
            let size := file_size f in
            if negb (malloc w (size + 1)) then
              Done (mkExit 1 [] allocation_failed
                      [Fopen filename true; Malloc (size + 1) false; Fclose])
            else
              let got := take size (file_data f) in
              if decide (length got ≠ size) then
                Done (mkExit 1 [] (read_failed filename)
                        [Fopen filename true; Malloc (size + 1) true;
                         Fread size (length got); Free; Fclose])
              else
                let code := got ++ [NUL] in
                match interpret code with
                | Done o =>
                    Done (mkExit 0 (on_stdout o) (on_stderr o)
                            [Fopen filename true; Malloc (size + 1) true;
                             Fread size (length got); Interpret code;
                             Free; Fclose])
                | Fault => Fault
                | OutOfFuel => OutOfFuel
                end
        end
    end.

(** Resources held after a sequence of calls: open files and live
    buffers; [None] when something not held is released. *)
Record held : Type := mkHeld { open_files : nat; live_buffers : nat }.

Definition account (h : held) (c : call) : option held :=
  match c with
  | Fopen _ true => Some (mkHeld (S (open_files h)) (live_buffers h))
  | Malloc _ true => Some (mkHeld (open_files h) (S (live_buffers h)))
  | Fclose =>
      match open_files h with
      | S n => Some (mkHeld n (live_buffers h))
      | 0 => None
      end
  | Free =>
      match live_buffers h with
      | S n => Some (mkHeld (open_files h) n)
      | 0 => None
      end
  | _ => Some h
  end.

Fixpoint holding (h : held) (cs : list call) : option held :=
  match cs with
  | [] => Some h
  | c :: cs' => h' ← account h c; holding h' cs'
  end.

(** The file [name] opens, its size is measured as the length of
    [content], the buffer is granted and [fread] delivers [content]. *)
Definition loads (w : world) (name content : list ascii) : Prop :=
  ∃ f, fopen w name = Some f
       ∧ file_size f = length content
       ∧ file_data f = content
       ∧ malloc w (length content + 1) = true.

(** ** Inputs and environments used in the examples *)

(** A [print] command that starts after the working copy's capacity. *)
Definition beyond_capacity : list ascii :=
  replicate MAX_CODE_SIZE " " ++ lit "print hello" ++ [NUL].

(** The word [printer] cut by the capacity after its fifth letter. *)
Definition straddling : list ascii :=
  replicate 994 " " ++ lit "printer" ++ [NUL].

(** A [print] whose argument [hello] is cut by the capacity after [h]. *)
Definition argument_cut : list ascii :=
  replicate 992 " " ++ lit "print hello" ++ [NUL].

Definition print_print : list ascii := lit "print print" ++ [NUL].

(** A world with one readable file and enough memory. *)
Definition one_file (name content : list ascii) : world :=
  mkWorld (λ n, if decide (n = name) then Some (mkFile (length content) content)
                else None)
          (λ _, true).

(** The same file, but [malloc] fails. *)
Definition no_memory (name content : list ascii) : world :=
  mkWorld (fopen (one_file name content)) (λ _, false).

(** A file that shrinks between [ftell] and [fread]. *)
Definition shrinking (name content : list ascii) (size : nat) : world :=
  mkWorld (λ n, if decide (n = name) then Some (mkFile size content) else None)
          (λ _, true).

(** A run from [σ] to [σ'] appended [o] to the two streams. *)
Definition emits (σ σ' : state) (o : output) : Prop :=
  stdout σ' = stdout σ ++ on_stdout o ∧ stderr σ' = stderr σ ++ on_stderr o.

(** The two statements proved by mutual induction on the loop bound: the
    loop entered with a token in hand, and a call of [strtok] followed by
    the loop. *)
Definition loop_ok (fuel : nat) : Prop :=
  ∀ σ tok t p s,
    length s < fuel →
    string_at (code_copy σ) tok t →
    save_ptr σ = Some p →
    string_at (code_copy σ) p s →
    ∃ σ', while_token fuel (Some tok) σ = Done (tt, σ')
          ∧ emits σ σ' (run_tokens (t :: tokens s)).

Definition next_ok (fuel : nat) : Prop :=
  ∀ arg σ p s,
    length s ≤ fuel →
    match arg with Some q => Some q | None => save_ptr σ end = Some p →
    string_at (code_copy σ) p s →
    ∃ σ', (next ← strtok arg delimiter; while_token fuel next) σ = Done (tt, σ')
          ∧ emits σ σ' (run_tokens (tokens s)).

(** ** Tokens *)

Lemma word_after_word s : word s ++ after_word s = s.
Proof.
  induction s as [|c s IH]; simpl; [done|].
  destruct (decide (c ∈ delimiter)); simpl; [done|]. by rewrite IH.
Qed.

Lemma skip_delims_length s : length (skip_delims s) ≤ length s.
Proof.
  induction s as [|c s IH]; simpl; [lia|].
  destruct (decide (c ∈ delimiter)); simpl; lia.
Qed.

Lemma after_word_length s : length (after_word s) ≤ length s.
Proof.
  induction s as [|c s IH]; simpl; [lia|].
  destruct (decide (c ∈ delimiter)); simpl; lia.
Qed.

Lemma skip_delims_head c r s : skip_delims s = c :: r → c ∉ delimiter.
Proof.
  induction s as [|d s IH]; simpl; [done|].
  destruct (decide (d ∈ delimiter)); [done|]. by intros [= -> _].
Qed.

Lemma tokens_skip s : tokens s = tokens (skip_delims s).
Proof.
  unfold tokens. induction s as [|c s IH]; simpl; [done|].
  destruct (decide (c ∈ delimiter)) as [Hc|Hc]; simpl; [done|].
  by rewrite decide_False.
Qed.

Lemma tokens_from_word r cur :
  cur ≠ [] ∨ word r ≠ [] →
  tokens_from cur r = (cur ++ word r) :: tokens (tail (after_word r)).
Proof.
  revert cur. induction r as [|c r IH]; intros cur H; simpl in *.
  - destruct H as [H|H]; [|done]. rewrite app_nil_r. by destruct cur.
  - destruct (decide (c ∈ delimiter)) as [Hc|Hc]; simpl.
    + destruct H as [H|H]; [|done]. rewrite app_nil_r. by destruct cur.
    + rewrite IH by (left; by destruct cur). by rewrite <-app_assoc.
Qed.

(** One step of tokenisation: skip delimiters, take a word, go on after
    the delimiter that ended it. *)
Lemma tokens_unfold s :
  tokens s =
    match skip_delims s with
    | [] => []
    | r => word r :: tokens (tail (after_word r))
    end.
Proof.
  rewrite tokens_skip. destruct (skip_delims s) as [|c r] eqn:E; [done|].
  apply skip_delims_head in E. unfold tokens at 1.
  rewrite tokens_from_word; [done|]. right. simpl. by rewrite decide_False.
Qed.

(** [tokens] is determined by three equations: a leading delimiter is
    dropped, a delimiter-free word before a delimiter is a token, and so
    is a delimiter-free word that ends the string. *)
Lemma tokens_delim d s : d ∈ delimiter → tokens (d :: s) = tokens s.
Proof. intros Hd. unfold tokens. simpl. by rewrite decide_True. Qed.

Lemma tokens_from_run cur w :
  Forall (λ c, c ∉ delimiter) w →
  (∀ d s, d ∈ delimiter →
          tokens_from cur (w ++ d :: s) = flush (cur ++ w) ++ tokens s)
  ∧ tokens_from cur w = flush (cur ++ w).
Proof.
  intros Hw. revert cur. induction Hw as [|c w Hc Hw IH]; intros cur.
  - rewrite app_nil_r. split; [|done]. intros d s Hd. simpl.
    by rewrite decide_True.
  - rewrite (cons_middle c cur w), app_assoc.
    destruct (IH (cur ++ [c])) as [IH1 IH2]. split.
    + intros d s Hd. cbn [app tokens_from]. rewrite decide_False by done. auto.
    + cbn [tokens_from]. by rewrite decide_False.
Qed.

Lemma tokens_word_delim w d s :
  w ≠ [] → Forall (λ c, c ∉ delimiter) w → d ∈ delimiter →
  tokens (w ++ d :: s) = w :: tokens s.
Proof.
  intros Hne Hw Hd. unfold tokens at 1.
  rewrite (proj1 (tokens_from_run [] w Hw) d s Hd). by destruct w.
Qed.

Lemma tokens_last_word w :
  w ≠ [] → Forall (λ c, c ∉ delimiter) w → tokens w = [w].
Proof.
  intros Hne Hw. unfold tokens.
  rewrite (proj2 (tokens_from_run [] w Hw)). by destruct w.
Qed.

Example tokens_sample :
  tokens (lit "  print  a" ++ ["009"; "010"] ++ lit "b ") =
    [lit "print"; lit "a"; lit "b"].
Proof. reflexivity. Qed.

(** ** The library functions on a NUL-terminated string *)

Lemma ascii_diff_zero (c d : ascii) :
  (Z.of_nat (nat_of_ascii c) - Z.of_nat (nat_of_ascii d) = 0)%Z → c = d.
Proof.
  intros H. assert (nat_of_ascii c = nat_of_ascii d) as E by lia.
  apply (f_equal ascii_of_nat) in E. by rewrite !ascii_nat_embedding in E.
Qed.

Lemma strlen_spec s rest :
  NUL ∉ s → Libc.strlen (s ++ NUL :: rest) = Some (length s).
Proof.
  induction s as [|c s IH]; intros Hs; simpl; [done|].
  apply not_elem_of_cons in Hs as [Hc Hs].
  rewrite decide_False by done. by rewrite IH.
Qed.

Lemma c_str_spec s rest :
  NUL ∉ s → Libc.c_str (s ++ NUL :: rest) = Some s.
Proof.
  induction s as [|c s IH]; intros Hs; simpl; [done|].
  apply not_elem_of_cons in Hs as [Hc Hs].
  rewrite decide_False by done. by rewrite IH.
Qed.

Lemma strspn_spec s rest :
  NUL ∉ s →
  ∃ n, Libc.strspn (s ++ NUL :: rest) delimiter = Some n
       ∧ drop n (s ++ NUL :: rest) = skip_delims s ++ NUL :: rest.
Proof.
  induction s as [|c s IH]; intros Hs; simpl; [by exists 0|].
  apply not_elem_of_cons in Hs as [Hc Hs].
  rewrite decide_False by done.
  destruct (decide (c ∈ delimiter)); [|by exists 0].
  destruct (IH Hs) as (n & -> & Hn). by exists (S n).
Qed.

Lemma strcspn_spec s rest :
  NUL ∉ s →
  Libc.strcspn (s ++ NUL :: rest) delimiter = Some (length (word s)).
Proof.
  induction s as [|c s IH]; intros Hs; simpl; [done|].
  apply not_elem_of_cons in Hs as [Hc Hs].
  rewrite decide_False by done.
  destruct (decide (c ∈ delimiter)); [done|]. by rewrite IH.
Qed.

Lemma strcmp_spec s rest u :
  NUL ∉ s → NUL ∉ u →
  ∃ z, Libc.strcmp (s ++ NUL :: rest) (u ++ [NUL]) = Some z
       ∧ (z = 0%Z ↔ s = u).
Proof.
  revert u. induction s as [|c s IH]; intros [|d u] Hs Hu.
  - by exists 0%Z.
  - apply not_elem_of_cons in Hu as [Hd _].
    cbn [app Libc.strcmp]. rewrite decide_False by done.
    eexists; split; [done|]. split; [|done].
    intros Hz%ascii_diff_zero. done.
  - apply not_elem_of_cons in Hs as [Hc _].
    cbn [app Libc.strcmp]. rewrite decide_False by done.
    eexists; split; [done|]. split; [|done].
    intros Hz%ascii_diff_zero. done.
  - apply not_elem_of_cons in Hs as [Hc Hs].
    apply not_elem_of_cons in Hu as [Hd Hu].
    cbn [app Libc.strcmp].
    destruct (decide (c = d)) as [->|Hne].
    + rewrite decide_False by done.
      destruct (IH u Hs Hu) as (z & -> & Hz).
      exists z. split; [done|].
      rewrite Hz. split; [by intros ->|by intros [= ->]].
    + eexists; split; [done|]. split; [|by intros [= -> _]].
      intros Hz%ascii_diff_zero. done.
Qed.

(** ** [strtok] on a NUL-terminated string *)

Lemma skip_delims_no_NUL s : NUL ∉ s → NUL ∉ skip_delims s.
Proof.
  induction s as [|c s IH]; simpl; [done|]. intros Hs.
  destruct (decide (c ∈ delimiter)); [|done].
  apply not_elem_of_cons in Hs as [_ Hs]. auto.
Qed.

Lemma word_no_NUL s : NUL ∉ s → NUL ∉ word s.
Proof.
  intros Hs. rewrite <-(word_after_word s) in Hs.
  by apply not_elem_of_app in Hs as [? _].
Qed.

Lemma after_word_no_NUL s : NUL ∉ s → NUL ∉ after_word s.
Proof.
  intros Hs. rewrite <-(word_after_word s) in Hs.
  by apply not_elem_of_app in Hs as [_ ?].
Qed.

Lemma lookup_drop_head (mem : list ascii) q c l :
  drop q mem = c :: l → mem !! q = Some c.
Proof.
  intros H. replace q with (q + 0) by lia. by rewrite <-lookup_drop, H.
Qed.

(** Two calls on the block [" ab c\0"]: the first returns index 1 and
    overwrites the space at index 3; the second returns index 4 and leaves
    the saved pointer on the terminator. *)
Example strtok_first :
  strtok (Some 0) delimiter (initial (lit " ab c" ++ [NUL])) =
    Done (Some 1, mkState (lit " ab" ++ [NUL] ++ lit "c" ++ [NUL]) (Some 4) [] []).
Proof. reflexivity. Qed.

Example strtok_second :
  strtok None delimiter
    (mkState (lit " ab" ++ [NUL] ++ lit "c" ++ [NUL]) (Some 4) [] []) =
    Done (Some 4, mkState (lit " ab" ++ [NUL] ++ lit "c" ++ [NUL]) (Some 5) [] []).
Proof. reflexivity. Qed.

Example strtok_exhausted :
  strtok None delimiter
    (mkState (lit " ab" ++ [NUL] ++ lit "c" ++ [NUL]) (Some 5) [] []) =
    Done (None, mkState (lit " ab" ++ [NUL] ++ lit "c" ++ [NUL]) (Some 5) [] []).
Proof. reflexivity. Qed.

Lemma strtok_spec (arg : option nat) (σ : state) p s :
  match arg with Some q => Some q | None => save_ptr σ end = Some p →
  string_at (code_copy σ) p s →
  ∃ tok σ' p',
    strtok arg delimiter σ = Done (tok, σ')
    ∧ stdout σ' = stdout σ ∧ stderr σ' = stderr σ
    ∧ save_ptr σ' = Some p'
    ∧ string_at (code_copy σ') p' (tail (after_word (skip_delims s)))
    ∧ match skip_delims s with
      | [] => tok = None
      | r => ∃ t, tok = Some t ∧ string_at (code_copy σ') t (word r)
      end.
Proof.
  intros Hstart [Hnul [rest Hdrop]].
  unfold strtok. rewrite Hstart.
  unfold mbind, M_bind, bind, reading. rewrite Hdrop.
  destruct (strspn_spec s rest Hnul) as (n & -> & Hn).
  assert (drop (p + n) (code_copy σ) = skip_delims s ++ NUL :: rest) as Htok.
  { by rewrite <-drop_drop, Hdrop. }
  pose proof (skip_delims_no_NUL s Hnul) as Hnul'.
  unfold load at 1.
  destruct (skip_delims s) as [|c r] eqn:E.
  - rewrite (lookup_drop_head _ _ _ _ Htok). rewrite decide_True by done.
    eexists None, _, (p + n). repeat split; simpl; try done. by exists rest.
  - set (r0 := c :: r) in *.
    assert (c ≠ NUL) as Hc by (intros ->; apply Hnul'; left).
    rewrite (lookup_drop_head _ _ _ _ Htok). rewrite decide_False by done.
    rewrite Htok, (strcspn_spec r0 rest Hnul').
    set (e := p + n + length (word r0)).
    assert (r0 ++ NUL :: rest = word r0 ++ after_word r0 ++ NUL :: rest) as Hsplit.
    { by rewrite app_assoc, word_after_word. }
    assert (drop e (code_copy σ) = after_word r0 ++ NUL :: rest) as He.
    { unfold e. by rewrite <-drop_drop, Htok, Hsplit, drop_app_length. }
    pose proof (word_no_NUL r0 Hnul') as Hw.
    pose proof (after_word_no_NUL r0 Hnul') as Ha.
    unfold load.
    destruct (after_word r0) as [|d r3] eqn:E2.
    + rewrite (lookup_drop_head _ _ _ _ He). rewrite decide_True by done.
      eexists (Some (p + n)), _, e. repeat split; simpl; try done.
      * by exists rest.
      * exists (p + n). split; [done|]. split; [done|]. exists rest.
        by rewrite Htok, Hsplit.
    + assert (d ≠ NUL) as Hd by (intros ->; apply Ha; left).
      rewrite (lookup_drop_head _ _ _ _ He). rewrite decide_False by done.
      unfold store. rewrite decide_True.
      2:{ apply lookup_lt_is_Some. rewrite (lookup_drop_head _ _ _ _ He). eauto. }
      eexists (Some (p + n)), _, (S e). repeat split; simpl; try done.
      * by apply not_elem_of_cons in Ha as [_ ?].
      * exists rest. rewrite drop_insert_lt by lia.
        replace (S e) with (e + 1) by lia. by rewrite <-drop_drop, He.
      * exists (p + n). split; [done|]. split; [done|].
        exists (r3 ++ NUL :: rest).
        rewrite drop_insert_ge by (unfold e; lia). rewrite Htok, Hsplit.
        replace (e - (p + n)) with (length (word r0) + 0) by (unfold e; lia).
        by rewrite insert_app_r.
Qed.

(** ** The loop follows the token sequence *)

Lemma next_shorter s :
  skip_delims s ≠ [] →
  length (tail (after_word (skip_delims s))) < length s.
Proof.
  intros Hne. pose proof (skip_delims_length s) as Hle.
  destruct (skip_delims s) as [|c r] eqn:E; [done|].
  apply skip_delims_head in E. simpl in *. rewrite decide_False by done.
  pose proof (after_word_length r). destruct (after_word r); simpl in *; lia.
Qed.

Lemma while_token_None fuel σ : while_token fuel None σ = Done (tt, σ).
Proof. by destruct fuel. Qed.

Lemma bind_Done {A B} (m : M A) (k : A → M B) σ a σ' :
  m σ = Done (a, σ') → (m ≫= k) σ = k a σ'.
Proof. unfold mbind, M_bind, bind. by intros ->. Qed.

Lemma print_no_NUL : NUL ∉ lit "print".
Proof.
  intros H. cbn in H.
  repeat (apply elem_of_cons in H as [H|H]; [discriminate|]).
  by apply elem_of_nil in H.
Qed.

Lemma strcmp_print_spec σ tok t :
  string_at (code_copy σ) tok t →
  ∃ z, strcmp_print tok σ = Done (z, σ) ∧ (z = 0%Z ↔ t = lit "print").
Proof.
  intros [Ht [rest Htok]]. unfold strcmp_print, reading. rewrite Htok.
  destruct (strcmp_spec t rest (lit "print") Ht print_no_NUL) as (z & -> & Hz).
  by exists z.
Qed.

Lemma printf_Printed_spec σ a x :
  string_at (code_copy σ) a x →
  printf_Printed a σ =
    Done (tt, mkState (code_copy σ) (save_ptr σ)
                (stdout σ ++ lit "Printed: " ++ x ++ [newline]) (stderr σ)).
Proof.
  intros [Hx [rest Ha]]. unfold printf_Printed.
  erewrite bind_Done; [done|]. unfold reading. by rewrite Ha, c_str_spec.
Qed.

Lemma loop_next fuel : loop_ok fuel → next_ok fuel.
Proof.
  intros IH arg σ p s Hlen Hstart Hat.
  destruct (strtok_spec arg σ p s Hstart Hat)
    as (tok & σ1 & p1 & Hrun & Hout & Herr & Hsave & Hat1 & Htok).
  rewrite (bind_Done _ _ _ _ _ Hrun).
  rewrite (tokens_unfold s). pose proof (next_shorter s) as Hshort.
  destruct (skip_delims s) as [|c r] eqn:E.
  - subst tok. exists σ1. split; [apply while_token_None|].
    split; simpl; by rewrite app_nil_r.
  - destruct Htok as (t & -> & Hword). specialize (Hshort ltac:(done)).
    edestruct IH as (σ' & Hloop & Ho & He);
      [|exact Hword|exact Hsave|exact Hat1|]; [lia|].
    exists σ'. split; [done|]. split; congruence.
Qed.

Lemma next_loop fuel : next_ok fuel → loop_ok (S fuel).
Proof.
  intros IH σ tok t p s Hlen Htok Hsave Hat.
  cbn [while_token].
  destruct (strcmp_print_spec σ tok t Htok) as (z & Hcmp & Hz).
  rewrite (bind_Done _ _ _ _ _ Hcmp).
  destruct (decide (z = 0%Z)) as [Hz0|Hz0].
  - apply Hz in Hz0 as ->.
    destruct (strtok_spec None σ p s Hsave Hat)
      as (arg & σ1 & p1 & Hrun & Hout & Herr & Hsave1 & Hat1 & Harg).
    rewrite (tokens_unfold s). pose proof (next_shorter s) as Hshort.
    destruct (skip_delims s) as [|c r] eqn:E.
    + subst arg.
      erewrite bind_Done; [|by erewrite bind_Done by exact Hrun].
      edestruct (IH None) as (σ' & -> & Ho & He);
        [| |exact Hat1|]; [simpl; lia|done|].
      exists σ'. split; [done|]. simpl in *.
      rewrite !app_nil_r in *. split; simpl; rewrite ?app_nil_r; congruence.
    + destruct Harg as (a & -> & Hword). specialize (Hshort ltac:(done)).
      erewrite bind_Done;
        [|erewrite bind_Done by exact Hrun; by apply printf_Printed_spec].
      edestruct (IH None) as (σ' & -> & Ho & He);
        [| |exact Hat1|]; [lia|done|].
      exists σ'. split; [done|]. cbv zeta. cbn [run_tokens].
      rewrite decide_True by done. cbn [stdout stderr] in Ho, He.
      split; cbn [on_stdout on_stderr]; [|congruence].
      rewrite Ho, Hout. by rewrite <-!app_assoc.
  - erewrite bind_Done by done.
    edestruct (IH None) as (σ' & -> & Ho & He);
      [|exact Hsave|exact Hat|]; [lia|].
    exists σ'. split; [done|]. cbn [run_tokens].
    rewrite decide_False; [done|]. intros ->. by apply Hz0, Hz.
Qed.

Lemma loop_ok_all fuel : loop_ok fuel.
Proof.
  induction fuel as [|fuel IH]; [intros ?; intros; lia|].
  by apply next_loop, loop_next.
Qed.

Lemma next_ok_all fuel : next_ok fuel.
Proof. apply loop_next, loop_ok_all. Qed.

(** ** The working copy *)

Lemma text_no_NUL code : NUL ∉ text code.
Proof.
  induction code as [|c code IH]; simpl; [by apply not_elem_of_nil|].
  destruct (decide (c = NUL)); [by apply not_elem_of_nil|].
  by apply not_elem_of_cons.
Qed.

Lemma text_take n code : text (take n code) = take n (text code).
Proof.
  revert code. induction n as [|n IH]; intros [|c code]; simpl; try done.
  destruct (decide (c = NUL)); [done|]. simpl. by rewrite IH.
Qed.

Lemma text_app s rest : NUL ∉ s → text (s ++ NUL :: rest) = s.
Proof.
  induction s as [|c s IH]; intros Hs; simpl; [done|].
  apply not_elem_of_cons in Hs as [Hc Hs].
  rewrite decide_False by done. by rewrite IH.
Qed.

Lemma scanned_no_NUL code : NUL ∉ scanned code.
Proof.
  unfold scanned. intros [i [H _]]%elem_of_take.
  apply (text_no_NUL code). by eapply list_elem_of_lookup_2.
Qed.

Lemma scanned_length code : length (scanned code) < MAX_CODE_SIZE.
Proof. unfold scanned, MAX_CODE_SIZE. rewrite length_take. lia. Qed.

Lemma strncpy_spec code n :
  NUL ∈ code →
  Libc.strncpy code n =
    Some (take n (text code) ++ replicate (n - length (text code)) NUL).
Proof.
  revert code. induction n as [|n IH]; intros code Hin; [by destruct code|].
  destruct code as [|c code]; [by apply elem_of_nil in Hin|]. simpl.
  destruct (decide (c = NUL)) as [->|Hc]; [done|].
  apply elem_of_cons in Hin as [?|Hin]; [done|].
  by rewrite IH.
Qed.

Lemma terminate_copy (t : list ascii) n :
  <[n := NUL]> (take (S n) t ++ replicate (S n - length t) NUL) =
    take n t ++ replicate (S n - length (take n t)) NUL.
Proof.
  revert t. induction n as [|n IH]; intros [|c t]; try done.
  - cbn [take length app]. rewrite Nat.sub_0_r. apply insert_replicate.
  - cbn [take length app Nat.sub insert list_insert]. f_equal. apply IH.
Qed.

Lemma working_copy_spec code :
  NUL ∈ code →
  working_copy code =
    Some (scanned code ++
          replicate (MAX_CODE_SIZE - length (scanned code)) NUL).
Proof.
  intros Hin. unfold working_copy, scanned.
  rewrite (strncpy_spec code MAX_CODE_SIZE Hin). cbn [fmap option_fmap option_map].
  f_equal. change MAX_CODE_SIZE with (S (MAX_CODE_SIZE - 1)) at 2 3 4.
  replace (S (MAX_CODE_SIZE - 1) - 1) with (MAX_CODE_SIZE - 1) by done.
  apply terminate_copy.
Qed.

Lemma scan_block_spec fuel s rest :
  NUL ∉ s → length s ≤ fuel →
  scan_block fuel (s ++ NUL :: rest) = Done (run_tokens (tokens s)).
Proof.
  intros Hs Hlen. unfold scan_block, scan.
  destruct (next_ok_all fuel (Some 0) (initial (s ++ NUL :: rest)) 0 s)
    as (σ' & -> & Ho & He); [done|done| |].
  { split; [done|]. by exists rest. }
  simpl in Ho, He. rewrite Ho, He. by destruct (run_tokens _).
Qed.

(** [interpret] runs the algorithm of the specification on the tokens of
    the scanned text, whatever the loop bound from [MAX_CODE_SIZE] up. *)
Lemma interpret_fuel_spec fuel code :
  NUL ∈ code → MAX_CODE_SIZE ≤ fuel →
  interpret_fuel fuel code = Done (run_tokens (tokens (scanned code))).
Proof.
  intros Hin Hfuel. unfold interpret_fuel.
  rewrite (working_copy_spec code Hin).
  pose proof (scanned_length code) as Hlen.
  destruct (MAX_CODE_SIZE - length (scanned code)) as [|k] eqn:E; [lia|].
  cbn [replicate]. apply scan_block_spec; [apply scanned_no_NUL|lia].
Qed.

Lemma interpret_spec code :
  NUL ∈ code → interpret code = Done (run_tokens (tokens (scanned code))).
Proof. intros Hin. by apply interpret_fuel_spec. Qed.

Lemma interpret_fuel_enough fuel code :
  NUL ∈ code → MAX_CODE_SIZE ≤ fuel → interpret_fuel fuel code = interpret code.
Proof.
  intros Hin Hfuel. by rewrite interpret_spec, interpret_fuel_spec.
Qed.

(** ** The algorithm on token sequences *)

(** Induction following the way [run_tokens] consumes its input. *)
Lemma run_tokens_ind (P : list (list ascii) → Prop) :
  P [] →
  (∀ t ts, t ≠ lit "print" → P ts → P (t :: ts)) →
  P [lit "print"] →
  (∀ x ts, P ts → P (lit "print" :: x :: ts)) →
  ∀ ts, P ts.
Proof.
  intros Hnil Hskip Hlast Hprint ts.
  cut (P ts ∧ ∀ t, P (t :: ts)); [by intros [? _]|].
  induction ts as [|a ts [IH1 IH2]].
  - split; [done|]. intros t.
    destruct (decide (t = lit "print")) as [->|]; auto.
  - split; [done|]. intros t.
    destruct (decide (t = lit "print")) as [->|]; auto.
Qed.

Lemma run_tokens_skip pre ts :
  lit "print" ∉ pre → run_tokens (pre ++ ts) = run_tokens ts.
Proof.
  induction pre as [|t pre IH]; intros Hpre; [done|].
  apply not_elem_of_cons in Hpre as [Ht Hpre].
  cbn [app run_tokens]. rewrite decide_False by done. auto.
Qed.

Lemma run_tokens_no_print ts :
  lit "print" ∉ ts → run_tokens ts = mkOutput [] [].
Proof.
  intros H. rewrite <-(app_nil_r ts). by rewrite run_tokens_skip.
Qed.

Lemma run_tokens_app pre ts :
  awaits_argument pre = false →
  run_tokens (pre ++ ts) =
    mkOutput (on_stdout (run_tokens pre) ++ on_stdout (run_tokens ts))
             (on_stderr (run_tokens ts)).
Proof.
  induction pre as [|t pre Ht IH| |x pre IH] using run_tokens_ind; intros Hpre.
  - cbn [app run_tokens on_stdout]. by destruct (run_tokens ts).
  - cbn [awaits_argument] in Hpre. rewrite decide_False in Hpre by done.
    cbn [app run_tokens]. rewrite !decide_False by done. auto.
  - done.
  - cbn [awaits_argument] in Hpre. rewrite decide_True in Hpre by done.
    cbn [app run_tokens]. rewrite !decide_True by done.
    rewrite (IH Hpre). cbn [on_stdout on_stderr].
    by rewrite <-!app_assoc.
Qed.

(** ** [main] on a file that loads *)

Lemma main_loads w prog name content :
  loads w name content →
  main w [prog; name] =
    match interpret (content ++ [NUL]) with
    | Done o =>
        Done (mkExit 0 (on_stdout o) (on_stderr o)
                [Fopen name true; Malloc (length content + 1) true;
                 Fread (length content) (length content);
                 Interpret (content ++ [NUL]); Free; Fclose])
    | Fault => Fault
    | OutOfFuel => OutOfFuel
    end.
Proof.
  intros (f & Hopen & Hsize & Hdata & Hmalloc).
  unfold main. cbn [length lookup list_lookup].
  rewrite decide_False by (intros H; by apply H).
  rewrite Hopen. cbv zeta. rewrite Hsize, Hdata, Hmalloc. cbn [negb].
  rewrite firstn_all. by rewrite decide_False by (intros H; by apply H).
Qed.

Lemma NUL_in_buffer (content : list ascii) : NUL ∈ content ++ [NUL].
Proof. apply elem_of_app. right. by left. Qed.

Lemma strlen_text code n :
  Libc.strlen code = Some n → text code = take n code ∧ NUL ∈ code.
Proof.
  revert n. induction code as [|c code IH]; intros n; simpl; [done|].
  destruct (decide (c = NUL)) as [->|Hc].
  - intros [= <-]. split; [done|]. by left.
  - destruct (Libc.strlen code) as [m|]; [|done]. intros [= <-].
    destruct (IH m eq_refl) as [-> ?]. split; [done|]. by right.
Qed.

Lemma strlen_length code n : Libc.strlen code = Some n → n < length code.
Proof.
  revert n. induction code as [|c code IH]; intros n; simpl; [done|].
  destruct (decide (c = NUL)); [intros [= <-]; lia|].
  destruct (Libc.strlen code) as [m|]; [|done]. intros [= <-].
  specialize (IH m eq_refl). lia.
Qed.

(** ** The claims *)

(** C1, as stated, fails: the buffer [beyond_capacity] holds the token
    [print] followed by [hello] and no other [print], yet [interpret]
    writes nothing to standard output, because both tokens lie beyond the
    999 scanned characters. *)
Lemma print_beyond_capacity_silent :
  NUL ∈ beyond_capacity
  ∧ tokens (text beyond_capacity) = [] ++ [lit "print"; lit "hello"] ++ []
  ∧ interpret beyond_capacity = Done (mkOutput [] [])
  ∧ [] ≠ lit "Printed: " ++ lit "hello" ++ [newline].
Proof.
  split; [|split; [by vm_compute|split; [by vm_compute|done]]].
  unfold beyond_capacity. rewrite !elem_of_app. right. right. by left.
Qed.

(** C1, amended: for every NUL-terminated input buffer whose first 999
    characters contain the token [print] immediately followed by a token
    [x], and no other [print] before or after that pair, [interpret] writes
    exactly the line [Printed: x\n] to standard output, and nothing to
    standard error. *)
Theorem print_one_argument code pre x post :
  NUL ∈ code →
  tokens (scanned code) = pre ++ [lit "print"; x] ++ post →
  lit "print" ∉ pre →
  lit "print" ∉ post →
  interpret code = Done (mkOutput (lit "Printed: " ++ x ++ [newline]) []).
Proof.
  intros Hin Htok Hpre Hpost.
  rewrite (interpret_spec code Hin), Htok, (run_tokens_skip _ _ Hpre).
  cbn [app run_tokens]. rewrite decide_True by done.
  by rewrite (run_tokens_no_print post Hpost).
Qed.

Lemma print_one_argument_witness :
  interpret (lit "say print hello world" ++ [NUL]) =
    Done (mkOutput (lit "Printed: " ++ lit "hello" ++ [newline]) []).
Proof.
  apply (print_one_argument _ [lit "say"] (lit "hello") [lit "world"]).
  - apply NUL_in_buffer.
  - by vm_compute.
  - intros H. apply list_elem_of_singleton in H. discriminate.
  - intros H. apply list_elem_of_singleton in H. discriminate.
Defined.

(** C2, as stated, fails: the last token of [print print] is [print] with
    nothing after it, but it is the argument of the first [print]; the
    program prints it and reports no error. *)
Lemma print_print_no_error :
  tokens (text print_print) = [lit "print"] ++ [lit "print"]
  ∧ interpret print_print = Done (mkOutput (lit "Printed: print" ++ [newline]) [])
  ∧ main (one_file (lit "f") (lit "print print")) [lit "interpreter"; lit "f"] =
      Done (mkExit 0 (lit "Printed: print" ++ [newline]) []
              [Fopen (lit "f") true; Malloc 12 true; Fread 11 11;
               Interpret print_print; Free; Fclose]).
Proof. by vm_compute. Qed.

(** C2, amended: for every file that loads and whose first 999 characters
    end in a token [print] that is not the argument of the [print] before
    it (scanning the tokens [pre] before it leaves no [print] waiting),
    [interpret] writes [Error: Missing argument for print] to standard
    error, standard output holds only what the earlier tokens printed,
    scanning ends, and the process exits with code 0. *)
Theorem missing_argument_reported w prog name content pre :
  loads w name content →
  tokens (scanned (content ++ [NUL])) = pre ++ [lit "print"] →
  awaits_argument pre = false →
  interpret (content ++ [NUL]) =
    Done (mkOutput (on_stdout (run_tokens pre)) missing_argument)
  ∧ ∃ cs, main w [prog; name] =
            Done (mkExit 0 (on_stdout (run_tokens pre)) missing_argument cs).
Proof.
  intros Hload Htok Hpre.
  assert (interpret (content ++ [NUL]) =
            Done (mkOutput (on_stdout (run_tokens pre)) missing_argument)) as Hi.
  { rewrite (interpret_spec _ (NUL_in_buffer content)), Htok.
    rewrite (run_tokens_app _ _ Hpre). cbn [run_tokens].
    rewrite decide_True by done. cbn [on_stdout on_stderr].
    by rewrite app_nil_r. }
  split; [done|]. rewrite (main_loads _ _ _ _ Hload), Hi. eauto.
Qed.

Lemma one_file_loads name content : loads (one_file name content) name content.
Proof.
  eexists. cbn [one_file fopen malloc]. rewrite decide_True by done.
  by repeat split.
Qed.

Lemma missing_argument_reported_witness :
  interpret (lit "print a print" ++ [NUL]) =
    Done (mkOutput (lit "Printed: a" ++ [newline]) missing_argument)
  ∧ ∃ cs, main (one_file (lit "f") (lit "print a print"))
               [lit "interpreter"; lit "f"] =
            Done (mkExit 0 (lit "Printed: a" ++ [newline]) missing_argument cs).
Proof.
  apply (missing_argument_reported _ _ _ _ [lit "print"; lit "a"]).
  - apply one_file_loads.
  - by vm_compute.
  - by vm_compute.
Defined.

(** C3, as stated, fails: in [argument_cut] the token after [print] is
    [hello], but the working copy ends after its first letter, and the
    argument printed is [h]. *)
Lemma argument_cut_prints_h :
  tokens (text argument_cut) = [] ++ lit "print" :: lit "hello" :: []
  ∧ interpret argument_cut = Done (mkOutput (lit "Printed: h" ++ [newline]) [])
  ∧ lit "Printed: h" ++ [newline] ≠ lit "Printed: " ++ lit "hello" ++ [newline].
Proof. split; [by vm_compute|]. split; [by vm_compute|done]. Qed.

(** C3, amended: for every NUL-terminated input, [interpret] does what the
    algorithm does on the tokens of the first 999 characters; whenever a [print]
    standing as a command (the tokens [pre] before it leave no [print]
    waiting) is followed by a token [x], the output is that of [pre], then
    the one line [Printed: x\n], then that of the tokens after [x] taken on
    their own, so [x] is used once and never read as a command, even when
    it is [print] itself.  [print print print hello] yields
    [Printed: print\n] and [Printed: hello\n]. *)
Theorem argument_consumed_once code :
  NUL ∈ code →
  interpret code = Done (run_tokens (tokens (scanned code)))
  ∧ (∀ pre x post,
       tokens (scanned code) = pre ++ lit "print" :: x :: post →
       awaits_argument pre = false →
       interpret code =
         Done (mkOutput
                 (on_stdout (run_tokens pre)
                  ++ (lit "Printed: " ++ x ++ [newline])
                  ++ on_stdout (run_tokens post))
                 (on_stderr (run_tokens post))))
  ∧ interpret (lit "print print print hello" ++ [NUL]) =
      Done (mkOutput (lit "Printed: print" ++ [newline]
                      ++ lit "Printed: hello" ++ [newline]) []).
Proof.
  intros Hin. split; [by apply interpret_spec|]. split; [|by vm_compute].
  intros pre x post Htok Hpre.
  rewrite (interpret_spec code Hin), Htok, (run_tokens_app _ _ Hpre).
  cbn [run_tokens]. rewrite decide_True by done.
  cbn [on_stdout on_stderr]. by rewrite <-!app_assoc.
Qed.

Lemma argument_consumed_once_witness :
  interpret (lit "a print print b" ++ [NUL]) =
    Done (run_tokens (tokens (scanned (lit "a print print b" ++ [NUL])))).
Proof.
  apply (argument_consumed_once (lit "a print print b" ++ [NUL])).
  apply NUL_in_buffer.
Defined.

(** C4: for every input string of 1000 characters or more, the working
    copy is the first 999 characters followed by NUL, and [interpret]
    completes with the output of the algorithm on the tokens of those 999
    characters, which is also what it does on an input made of them alone:
    nothing beyond them is scanned and the truncation adds no message. *)
Theorem long_input_truncated code n :
  Libc.strlen code = Some n →
  MAX_CODE_SIZE ≤ n →
  working_copy code = Some (take (MAX_CODE_SIZE - 1) code ++ [NUL])
  ∧ interpret code = Done (run_tokens (tokens (take (MAX_CODE_SIZE - 1) code)))
  ∧ interpret code = interpret (take (MAX_CODE_SIZE - 1) code ++ [NUL]).
Proof.
  intros Hlen Hn. destruct (strlen_text code n Hlen) as [Htext Hin].
  pose proof (strlen_length code n Hlen) as Hlt.
  assert (scanned code = take (MAX_CODE_SIZE - 1) code) as Hscanned.
  { unfold scanned. rewrite Htext, take_take. f_equal. lia. }
  assert (length (scanned code) = MAX_CODE_SIZE - 1) as Hfull.
  { rewrite Hscanned, length_take. lia. }
  split; [|split].
  - rewrite (working_copy_spec code Hin), Hfull. by rewrite Hscanned.
  - by rewrite (interpret_spec code Hin), Hscanned.
  - rewrite (interpret_spec code Hin).
    rewrite (interpret_spec _ (NUL_in_buffer _)). unfold scanned at 2.
    rewrite text_app by (rewrite <-Hscanned; apply scanned_no_NUL).
    rewrite take_take, Nat.min_id. by rewrite Hscanned.
Qed.

Lemma long_input_truncated_witness :
  working_copy (replicate 1001 "a" ++ lit " print x" ++ [NUL]) =
    Some (take (MAX_CODE_SIZE - 1) (replicate 1001 "a" ++ lit " print x" ++ [NUL])
          ++ [NUL])
  ∧ interpret (replicate 1001 "a" ++ lit " print x" ++ [NUL]) =
      Done (run_tokens (tokens (take (MAX_CODE_SIZE - 1)
              (replicate 1001 "a" ++ lit " print x" ++ [NUL]))))
  ∧ interpret (replicate 1001 "a" ++ lit " print x" ++ [NUL]) =
      interpret (take (MAX_CODE_SIZE - 1)
                   (replicate 1001 "a" ++ lit " print x" ++ [NUL]) ++ [NUL]).
Proof.
  apply (long_input_truncated _ 1009); [by vm_compute|].
  unfold MAX_CODE_SIZE. lia.
Defined.

(** C5, as stated, fails: [straddling] contains no token equal to [print]
    (its only token is [printer]), but the working copy ends after
    [print], so [interpret] reports a missing argument on standard
    error. *)
Lemma straddling_reports_error :
  tokens (text straddling) = [lit "printer"]
  ∧ (lit "print" ∉ tokens (text straddling))
  ∧ interpret straddling = Done (mkOutput [] missing_argument)
  ∧ missing_argument ≠ [].
Proof.
  assert (tokens (text straddling) = [lit "printer"]) as E by by vm_compute.
  split; [done|]. split; [|split; [by vm_compute|done]].
  rewrite E. intros H. apply list_elem_of_singleton in H. discriminate.
Qed.

(** C5, amended: for every file that loads and whose first 999 characters
    contain no token equal to [print], [interpret] writes nothing to
    standard output and nothing to standard error, and the process exits
    with code 0; the empty file is such a file. *)
Theorem no_print_no_output w prog name content :
  loads w name content →
  (lit "print" ∉ tokens (scanned (content ++ [NUL])) →
   interpret (content ++ [NUL]) = Done (mkOutput [] [])
   ∧ ∃ cs, main w [prog; name] = Done (mkExit 0 [] [] cs))
  ∧ (content = [] → ∃ cs, main w [prog; name] = Done (mkExit 0 [] [] cs)).
Proof.
  intros Hload.
  assert (lit "print" ∉ tokens (scanned (content ++ [NUL])) →
          interpret (content ++ [NUL]) = Done (mkOutput [] [])
          ∧ ∃ cs, main w [prog; name] = Done (mkExit 0 [] [] cs)) as Hgen.
  { intros Hno.
    assert (interpret (content ++ [NUL]) = Done (mkOutput [] [])) as Hi.
    { rewrite (interpret_spec _ (NUL_in_buffer content)).
      by rewrite run_tokens_no_print. }
    split; [done|]. rewrite (main_loads _ _ _ _ Hload), Hi. eauto. }
  split; [done|]. intros ->. apply Hgen. by apply not_elem_of_nil.
Qed.

Lemma no_print_no_output_witness :
  (interpret (lit "say hello" ++ [NUL]) = Done (mkOutput [] [])
   ∧ ∃ cs, main (one_file (lit "f") (lit "say hello"))
                [lit "interpreter"; lit "f"] = Done (mkExit 0 [] [] cs))
  ∧ ∃ cs, main (one_file (lit "empty") []) [lit "interpreter"; lit "empty"] =
            Done (mkExit 0 [] [] cs).
Proof.
  split.
  - destruct (no_print_no_output (one_file (lit "f") (lit "say hello"))
                (lit "interpreter") (lit "f") (lit "say hello")
                (one_file_loads _ _)) as [H _].
    apply H.
    assert (tokens (scanned (lit "say hello" ++ [NUL])) =
              [lit "say"; lit "hello"]) as -> by by vm_compute.
    intros Hin. apply elem_of_cons in Hin as [Hin|Hin]; [discriminate|].
    apply list_elem_of_singleton in Hin. discriminate.
  - destruct (no_print_no_output (one_file (lit "empty") [])
                (lit "interpreter") (lit "empty") []
                (one_file_loads _ _)) as [_ H].
    by apply H.
Defined.

(** C6: whenever the argument count is not 2 (the program name and one
    path), [main] writes the usage message to standard error and returns
    1, having neither opened a file nor called [interpret]. *)
Theorem usage_error w argv :
  length argv ≠ 2 →
  main w argv = Done (mkExit 1 [] usage []).
Proof. intros H. unfold main. by rewrite decide_True. Qed.

Lemma usage_error_witness :
  main (one_file (lit "f") (lit "print x")) [lit "interpreter"] =
    Done (mkExit 1 [] usage [])
  ∧ main (one_file (lit "f") (lit "print x"))
         [lit "interpreter"; lit "f"; lit "g"] =
      Done (mkExit 1 [] usage []).
Proof.
  split; apply usage_error; cbn [length]; lia.
Defined.

(** C7: when the file cannot be opened, when the allocation fails, and
    when [fread] delivers fewer bytes than the measured size, [main]
    writes the matching message to standard error, writes nothing to
    standard output and returns 1; its calls release what was acquired
    (on a short read the buffer is freed, then the file is closed), so
    that no file stays open and no buffer stays allocated. *)
Theorem load_failures_release w prog name :
  (fopen w name = None →
   main w [prog; name] =
     Done (mkExit 1 [] (open_failed name) [Fopen name false]))
  ∧ (∀ f,
       fopen w name = Some f →
       malloc w (file_size f + 1) = false →
       main w [prog; name] =
         Done (mkExit 1 [] allocation_failed
                 [Fopen name true; Malloc (file_size f + 1) false; Fclose]))
  ∧ (∀ f,
       fopen w name = Some f →
       malloc w (file_size f + 1) = true →
       length (file_data f) < file_size f →
       main w [prog; name] =
         Done (mkExit 1 [] (read_failed name)
                 [Fopen name true; Malloc (file_size f + 1) true;
                  Fread (file_size f) (length (file_data f)); Free; Fclose]))
  ∧ (∀ r,
       main w [prog; name] = Done r →
       holding (mkHeld 0 0) (calls r) = Some (mkHeld 0 0)
       ∧ (exit_code r = 1%Z → proc_stdout r = [] ∧ proc_stderr r ≠ [])).
Proof.
  unfold main. cbn [length lookup list_lookup].
  rewrite decide_False by (intros H; by apply H).
  split; [by intros ->|]. split; [by intros f -> ->|]. split.
  - intros f -> -> Hshort. cbv zeta. cbn [negb].
    rewrite length_take, Nat.min_r by lia.
    by rewrite decide_True by lia.
  - intros r Hmain. revert Hmain.
    destruct (fopen w name) as [f|]; [|by intros [= <-]].
    cbv zeta. destruct (malloc w (file_size f + 1)); [|by intros [= <-]].
    cbn [negb]. case_decide; [by intros [= <-]|].
    destruct (interpret _); [|done..]. by intros [= <-].
Qed.

Lemma load_failures_release_witness :
  main (mkWorld (λ _, None) (λ _, true)) [lit "interpreter"; lit "f"] =
    Done (mkExit 1 [] (open_failed (lit "f")) [Fopen (lit "f") false])
  ∧ main (no_memory (lit "f") (lit "print x")) [lit "interpreter"; lit "f"] =
      Done (mkExit 1 [] allocation_failed
              [Fopen (lit "f") true; Malloc 8 false; Fclose])
  ∧ main (shrinking (lit "f") (lit "print") 7) [lit "interpreter"; lit "f"] =
      Done (mkExit 1 [] (read_failed (lit "f"))
              [Fopen (lit "f") true; Malloc 8 true; Fread 7 5; Free; Fclose])
  ∧ holding (mkHeld 0 0)
      [Fopen (lit "f") true; Malloc 8 true; Fread 7 5; Free; Fclose] =
      Some (mkHeld 0 0).
Proof.
  split; [|split].
  - by apply (load_failures_release (mkWorld (λ _, None) (λ _, true))).
  - destruct (load_failures_release (no_memory (lit "f") (lit "print x"))
                (lit "interpreter") (lit "f")) as (_ & H & _).
    by apply (H (mkFile 7 (lit "print x"))).
  - destruct (load_failures_release (shrinking (lit "f") (lit "print") 7)
                (lit "interpreter") (lit "f")) as (_ & _ & H & Hheld).
    assert (length (file_data (mkFile 7 (lit "print"))) < 7) as Hshort.
    { cbn [file_data lit list_ascii_of_string length]. lia. }
    specialize (H (mkFile 7 (lit "print")) eq_refl eq_refl Hshort).
    split; [exact H|]. by apply (Hheld _ H).
Defined.

(** The fault detection the next theorem relies on: a block without its
    terminator makes the copy, or the scan, run off its end. *)
Example interpret_unterminated : interpret (lit "print x") = Fault.
Proof. by vm_compute. Qed.

Example scan_unterminated : scan_block MAX_CODE_SIZE (lit "print x") = Fault.
Proof. by vm_compute. Qed.

(** C8: for every NUL-terminated input, the working copy has
    [MAX_CODE_SIZE] characters, its last one is NUL, and it holds a string
    of fewer than [MAX_CODE_SIZE] characters; run on the copy cut right
    after that string's terminator, where any read further on would be a
    fault, the scan completes with the output of [interpret]. *)
Theorem working_copy_terminated code :
  NUL ∈ code →
  ∃ buf n o,
    working_copy code = Some buf
    ∧ length buf = MAX_CODE_SIZE
    ∧ buf !! (MAX_CODE_SIZE - 1) = Some NUL
    ∧ Libc.strlen buf = Some n
    ∧ n < MAX_CODE_SIZE
    ∧ scan_block MAX_CODE_SIZE (take (S n) buf) = Done o
    ∧ interpret code = Done o.
Proof.
  intros Hin. pose proof (scanned_length code) as Hlen.
  pose proof (scanned_no_NUL code) as Hnul.
  eexists _, (length (scanned code)), _.
  split; [by apply working_copy_spec|].
  destruct (MAX_CODE_SIZE - length (scanned code)) as [|k] eqn:E; [lia|].
  cbn [replicate]. repeat split.
  - rewrite length_app. cbn [length]. rewrite length_replicate. lia.
  - rewrite lookup_app_r by lia.
    change (NUL :: replicate k NUL) with (replicate (S k) NUL).
    apply lookup_replicate_2. lia.
  - by apply strlen_spec.
  - done.
  - rewrite take_app, take_ge by lia.
    replace (S (length (scanned code)) - length (scanned code)) with 1 by lia.
    cbn [take]. apply scan_block_spec; [done|lia].
  - by apply interpret_spec.
Qed.

Lemma working_copy_terminated_witness :
  ∃ buf n o,
    working_copy beyond_capacity = Some buf
    ∧ length buf = MAX_CODE_SIZE
    ∧ buf !! (MAX_CODE_SIZE - 1) = Some NUL
    ∧ Libc.strlen buf = Some n
    ∧ n < MAX_CODE_SIZE
    ∧ scan_block MAX_CODE_SIZE (take (S n) buf) = Done o
    ∧ interpret beyond_capacity = Done o.
Proof.
  apply (working_copy_terminated beyond_capacity).
  unfold beyond_capacity. rewrite !elem_of_app. right. right. by left.
Defined.

(** C9: for every file whose content has its first NUL byte within the
    first 999 characters, [interpret] completes with the output of the
    algorithm on the tokens before that byte, exactly as on the content
    cut there, although [main], once the file loads, hands it the whole
    content followed by NUL. *)
Theorem nul_ends_input a b :
  NUL ∉ a →
  length a < MAX_CODE_SIZE - 1 →
  interpret ((a ++ NUL :: b) ++ [NUL]) = Done (run_tokens (tokens a))
  ∧ interpret ((a ++ NUL :: b) ++ [NUL]) = interpret (a ++ [NUL])
  ∧ (∀ w prog name,
       loads w name (a ++ NUL :: b) →
       ∃ r, main w [prog; name] = Done r
            ∧ Interpret ((a ++ NUL :: b) ++ [NUL]) ∈ calls r
            ∧ exit_code r = 0%Z
            ∧ proc_stdout r = on_stdout (run_tokens (tokens a))
            ∧ proc_stderr r = on_stderr (run_tokens (tokens a))).
Proof.
  intros Ha Hlen.
  assert (∀ rest, interpret (a ++ NUL :: rest) = Done (run_tokens (tokens a)))
    as Hi.
  { intros rest. rewrite interpret_spec.
    - unfold scanned. by rewrite text_app, take_ge by (done || lia).
    - apply elem_of_app. right. by left. }
  rewrite <-app_assoc. cbn [app]. split; [apply Hi|]. split; [by rewrite !Hi|].
  intros w prog name Hload. rewrite (main_loads _ _ _ _ Hload).
  rewrite <-app_assoc. cbn [app]. rewrite Hi.
  eexists. split; [done|]. cbn [calls exit_code proc_stdout proc_stderr].
  split; [|done]. do 3 right. left.
Qed.

Lemma nul_ends_input_witness :
  interpret ((lit "print a " ++ NUL :: lit " print b") ++ [NUL]) =
    Done (mkOutput (lit "Printed: a" ++ [newline]) []).
Proof.
  apply (nul_ends_input (lit "print a ") (lit " print b")).
  - intros H. cbn in H.
    repeat (apply elem_of_cons in H as [H|H]; [discriminate|]).
    by apply elem_of_nil in H.
  - cbn [lit list_ascii_of_string length]. unfold MAX_CODE_SIZE. lia.
Defined.

(** C10: [interpret] is a function of its input, and two NUL-terminated
    inputs that agree on their first 999 characters give the same result:
    the same text on standard output and on standard error. *)
Theorem interpret_prefix code1 code2 :
  NUL ∈ code1 →
  NUL ∈ code2 →
  take (MAX_CODE_SIZE - 1) code1 = take (MAX_CODE_SIZE - 1) code2 →
  interpret code1 = interpret code2.
Proof.
  intros H1 H2 Heq. rewrite !interpret_spec by done.
  unfold scanned. by rewrite <-!text_take, Heq.
Qed.

Lemma interpret_prefix_witness :
  interpret beyond_capacity = interpret (replicate MAX_CODE_SIZE " " ++ [NUL]).
Proof.
  apply interpret_prefix.
  - unfold beyond_capacity. rewrite !elem_of_app. right. right. by left.
  - apply NUL_in_buffer.
  - by vm_compute.
Defined.

(** ** Further properties of [interpret] *)

Lemma delimiter_not_NUL d : d ∈ delimiter → d ≠ NUL.
Proof.
  unfold delimiter. intros H ->.
  repeat (apply elem_of_cons in H as [H|H]; [discriminate|]).
  by apply elem_of_nil in H.
Qed.

Lemma tokens_delims ds s :
  Forall (λ c, c ∈ delimiter) ds → tokens (ds ++ s) = tokens s.
Proof.
  induction 1 as [|d ds Hd _ IH]; [done|].
  cbn [app]. by rewrite tokens_delim.
Qed.

Lemma tokens_from_app_delim cur a d b :
  d ∈ delimiter →
  tokens_from cur (a ++ d :: b) = tokens_from cur a ++ tokens b.
Proof.
  intros Hd. revert cur. induction a as [|c a IH]; intros cur.
  - cbn [app tokens_from]. by rewrite decide_True.
  - cbn [app tokens_from]. destruct (decide (c ∈ delimiter)); [|done].
    by rewrite IH, app_assoc.
Qed.

Lemma tokens_app_delim a d b :
  d ∈ delimiter → tokens (a ++ d :: b) = tokens a ++ tokens b.
Proof. apply tokens_from_app_delim. Qed.

Lemma tokens_from_chars (R : ascii → Prop) cur s :
  Forall R cur → Forall R s → Forall (Forall R) (tokens_from cur s).
Proof.
  intros Hcur Hs. revert cur Hcur.
  induction Hs as [|c s Hc Hs IH]; intros cur Hcur.
  - destruct cur; cbn; [constructor|]. by constructor; [|constructor].
  - cbn [tokens_from]. destruct (decide (c ∈ delimiter)).
    + apply Forall_app. split; [|by apply IH].
      destruct cur; cbn; [constructor|]. by constructor; [|constructor].
    + apply IH. apply Forall_app. split; [done|]. by constructor; [|constructor].
Qed.

Lemma tokens_from_words cur s :
  Forall (λ c, c ∉ delimiter) cur →
  Forall (λ t, t ≠ [] ∧ Forall (λ c, c ∉ delimiter) t) (tokens_from cur s).
Proof.
  revert cur. induction s as [|c s IH]; intros cur Hcur.
  - destruct cur; cbn; [constructor|]. by constructor; [|constructor].
  - cbn [tokens_from]. destruct (decide (c ∈ delimiter)).
    + apply Forall_app. split; [|by apply IH].
      destruct cur; cbn; [constructor|]. by constructor; [|constructor].
    + apply IH. apply Forall_app. split; [done|]. by constructor; [|constructor].
Qed.

Lemma run_tokens_stderr ts :
  on_stderr (run_tokens ts) =
    if awaits_argument ts then missing_argument else [].
Proof.
  induction ts as [|t ts Ht IH| |x ts IH] using run_tokens_ind.
  - done.
  - cbn [run_tokens awaits_argument]. by rewrite !decide_False.
  - done.
  - cbn [run_tokens awaits_argument]. by rewrite !decide_True.
Qed.

Lemma run_tokens_stdout ts :
  ∃ args,
    on_stdout (run_tokens ts) = concat (printed_line <$> args)
    ∧ args ⊆ ts
    ∧ 2 * length args ≤ length ts.
Proof.
  induction ts as [|t ts Ht IH| |x ts IH] using run_tokens_ind.
  - exists []. repeat split; [|done]. intros y Hy. by apply elem_of_nil in Hy.
  - destruct IH as (args & Hout & Hsub & Hlen). exists args.
    cbn [run_tokens]. rewrite decide_False by done.
    repeat split; [done| |cbn [length]; lia].
    intros y Hy. right. by apply Hsub.
  - exists []. repeat split; [|cbn [length]; lia].
    intros y Hy. by apply elem_of_nil in Hy.
  - destruct IH as (args & Hout & Hsub & Hlen). exists (x :: args).
    cbn [run_tokens]. rewrite decide_True by done. cbn [on_stdout].
    repeat split; [| |cbn [length]; lia].
    + rewrite Hout. cbn [fmap list_fmap concat]. unfold printed_line.
      by rewrite <-!app_assoc.
    + intros y [->|Hy]%elem_of_cons; [right; by left|].
      right. right. by apply Hsub.
Qed.

Lemma missing_argument_nonempty : missing_argument ≠ [].
Proof. done. Qed.

Lemma interpret_text s rest :
  NUL ∉ s → length s < MAX_CODE_SIZE →
  interpret (s ++ NUL :: rest) = Done (run_tokens (tokens s)).
Proof.
  intros Hs Hlen. rewrite interpret_spec.
  - unfold scanned. rewrite text_app by done.
    rewrite take_ge; [done|]. unfold MAX_CODE_SIZE in *. lia.
  - apply elem_of_app. right. by left.
Qed.

Lemma text_app_in a rest : NUL ∈ a → text (a ++ rest) = text a.
Proof.
  induction a as [|c a IH]; intros Hin; [by apply elem_of_nil in Hin|].
  cbn [app text]. destruct (decide (c = NUL)); [done|].
  apply elem_of_cons in Hin as [?|Hin]; [done|]. by rewrite IH.
Qed.

Lemma text_app_notin a rest : NUL ∉ a → text (a ++ rest) = a ++ text rest.
Proof.
  induction a as [|c a IH]; intros Hin; [done|].
  apply not_elem_of_cons in Hin as [Hc Hin].
  cbn [app text]. rewrite decide_False by done. by rewrite IH.
Qed.

(** X1: an input string of fewer than [MAX_CODE_SIZE] characters is
    copied whole, every character of the working copy after it is NUL,
    and [interpret] runs the algorithm on all of its tokens. *)
Theorem short_input_intact code n :
  Libc.strlen code = Some n →
  n < MAX_CODE_SIZE →
  working_copy code = Some (take n code ++ replicate (MAX_CODE_SIZE - n) NUL)
  ∧ interpret code = Done (run_tokens (tokens (take n code))).
Proof.
  intros Hlen Hn. destruct (strlen_text code n Hlen) as [Htext Hin].
  pose proof (strlen_length code n Hlen) as Hlt.
  assert (scanned code = take n code) as Hscanned.
  { unfold scanned. rewrite Htext, take_take. f_equal.
    unfold MAX_CODE_SIZE in *. lia. }
  split.
  - rewrite (working_copy_spec code Hin), Hscanned.
    by rewrite length_take, Nat.min_l by lia.
  - by rewrite (interpret_spec code Hin), Hscanned.
Qed.

Lemma short_input_intact_witness :
  working_copy (lit "print x" ++ [NUL]) =
    Some (take 7 (lit "print x" ++ [NUL]) ++ replicate (MAX_CODE_SIZE - 7) NUL)
  ∧ interpret (lit "print x" ++ [NUL]) =
      Done (run_tokens (tokens (take 7 (lit "print x" ++ [NUL])))).
Proof.
  apply (short_input_intact _ 7); [by vm_compute|].
  unfold MAX_CODE_SIZE. lia.
Defined.

(** The loop bound is not idle: with too few iterations allowed the model
    reports it. *)
Example loop_bound_exceeded :
  interpret_fuel 1 (lit "a b c" ++ [NUL]) = OutOfFuel.
Proof. by vm_compute. Qed.

(** X2: the loop of [interpret] terminates: for an input string of [n]
    characters, as many iterations as there are scanned characters (the
    smaller of [n] and 999) are enough to reach the end of the tokens, and
    any larger bound gives the same completed result. *)
Theorem loop_terminates code n fuel :
  Libc.strlen code = Some n →
  Nat.min n (MAX_CODE_SIZE - 1) ≤ fuel →
  interpret_fuel fuel code = interpret code
  ∧ ∃ o, interpret code = Done o.
Proof.
  intros Hlen Hfuel. destruct (strlen_text code n Hlen) as [Htext Hin].
  pose proof (strlen_length code n Hlen) as Hlt.
  rewrite (interpret_spec code Hin). split; [|eauto].
  unfold interpret_fuel. rewrite (working_copy_spec code Hin).
  pose proof (scanned_length code) as Hshort.
  destruct (MAX_CODE_SIZE - length (scanned code)) as [|k] eqn:E; [lia|].
  cbn [replicate]. apply scan_block_spec; [apply scanned_no_NUL|].
  unfold scanned. rewrite Htext, take_take, length_take. lia.
Qed.

Lemma loop_terminates_witness :
  interpret_fuel 5 (lit "a b c" ++ [NUL]) = interpret (lit "a b c" ++ [NUL])
  ∧ ∃ o, interpret (lit "a b c" ++ [NUL]) = Done o.
Proof.
  apply (loop_terminates _ 5); [by vm_compute|].
  unfold MAX_CODE_SIZE. lia.
Defined.

(** X3: [interpret] writes at most one error message: standard error is
    either empty or exactly the missing-argument line, and it is that line
    exactly when the scan of the first 999 characters ends on a [print]
    that found no argument. *)
Theorem at_most_one_error code :
  NUL ∈ code →
  ∃ o, interpret code = Done o
       ∧ (on_stderr o = [] ∨ on_stderr o = missing_argument)
       ∧ (on_stderr o = missing_argument
          ↔ awaits_argument (tokens (scanned code)) = true).
Proof.
  intros Hin. eexists. split; [by apply interpret_spec|].
  rewrite run_tokens_stderr.
  destruct (awaits_argument _); split; auto; split; done.
Qed.

Lemma at_most_one_error_witness :
  ∃ o, interpret (lit "print a print b print" ++ [NUL]) = Done o
       ∧ (on_stderr o = [] ∨ on_stderr o = missing_argument)
       ∧ (on_stderr o = missing_argument
          ↔ awaits_argument
              (tokens (scanned (lit "print a print b print" ++ [NUL]))) = true).
Proof. apply at_most_one_error, NUL_in_buffer. Defined.

(** X4: standard output consists of whole lines [Printed: x\n] and nothing
    else; every [x] is a token of the first 999 characters, hence
    non-empty and free of delimiters and NUL, and there is at most one
    line for every two tokens. *)
Theorem stdout_whole_lines code :
  NUL ∈ code →
  ∃ o args,
    interpret code = Done o
    ∧ on_stdout o = concat (printed_line <$> args)
    ∧ args ⊆ tokens (scanned code)
    ∧ Forall (λ x, x ≠ [] ∧ Forall (λ c, (c ∉ delimiter) ∧ c ≠ NUL) x) args
    ∧ 2 * length args ≤ length (tokens (scanned code)).
Proof.
  intros Hin.
  destruct (run_tokens_stdout (tokens (scanned code)))
    as (args & Hout & Hsub & Hlen).
  eexists _, args. split; [by apply interpret_spec|].
  repeat split; [done..| |done].
  pose proof (tokens_from_words [] (scanned code) ltac:(constructor)) as Hw.
  assert (Forall (λ c, c ≠ NUL) (scanned code)) as Hnul.
  { apply Forall_forall. intros c Hc ->. by apply (scanned_no_NUL code). }
  pose proof (tokens_from_chars _ [] (scanned code) ltac:(constructor) Hnul)
    as Hc.
  apply Forall_forall. intros x Hx%Hsub.
  rewrite Forall_forall in Hw, Hc.
  destruct (Hw x Hx) as [Hne Hnd]. split; [done|].
  specialize (Hc x Hx). rewrite Forall_forall in Hnd, Hc |- *.
  intros c Hcx. split; auto.
Qed.

Lemma stdout_whole_lines_witness :
  ∃ o args,
    interpret (lit "print a b print c" ++ [NUL]) = Done o
    ∧ on_stdout o = concat (printed_line <$> args)
    ∧ args ⊆ tokens (scanned (lit "print a b print c" ++ [NUL]))
    ∧ Forall (λ x, x ≠ [] ∧ Forall (λ c, (c ∉ delimiter) ∧ c ≠ NUL) x) args
    ∧ 2 * length args
        ≤ length (tokens (scanned (lit "print a b print c" ++ [NUL]))).
Proof. apply stdout_whole_lines, NUL_in_buffer. Defined.

(** X5: programs compose: when [a] alone runs without an error message,
    [a], a delimiter and [b] in one buffer of fewer than [MAX_CODE_SIZE]
    characters give the output of [a] followed by the output of [b]. *)
Theorem programs_compose a d b oa ob :
  NUL ∉ a → NUL ∉ b → d ∈ delimiter →
  length a + 1 + length b < MAX_CODE_SIZE →
  interpret (a ++ [NUL]) = Done oa →
  on_stderr oa = [] →
  interpret (b ++ [NUL]) = Done ob →
  interpret ((a ++ d :: b) ++ [NUL]) =
    Done (mkOutput (on_stdout oa ++ on_stdout ob) (on_stderr ob)).
Proof.
  intros Ha Hb Hd Hlen Hoa Herr Hob.
  rewrite interpret_text in Hoa, Hob by (done || lia).
  injection Hoa as <-. injection Hob as <-.
  rewrite run_tokens_stderr in Herr.
  destruct (awaits_argument (tokens a)) eqn:Hawait; [done|].
  rewrite interpret_text.
  - by rewrite (tokens_app_delim a d b Hd), (run_tokens_app _ _ Hawait).
  - apply not_elem_of_app. split; [done|].
    apply not_elem_of_cons. split; [|done].
    intros E. by apply (delimiter_not_NUL d).
  - rewrite length_app. cbn [length]. lia.
Qed.

Lemma programs_compose_witness :
  interpret ((lit "x print a" ++ newline :: lit "print") ++ [NUL]) =
    Done (mkOutput (printed_line (lit "a") ++ []) missing_argument).
Proof.
  apply (programs_compose (lit "x print a") newline (lit "print")
           (mkOutput (printed_line (lit "a")) [])
           (mkOutput [] missing_argument)).
  - intros H. cbn in H.
    repeat (apply elem_of_cons in H as [H|H]; [discriminate|]).
    by apply elem_of_nil in H.
  - apply print_no_NUL.
  - unfold delimiter. right. right. by left.
  - cbn [lit list_ascii_of_string length]. unfold MAX_CODE_SIZE. lia.
  - by vm_compute.
  - done.
  - by vm_compute.
Defined.

Lemma print_word : Forall (λ c, c ∉ delimiter) (lit "print").
Proof.
  cbn. repeat constructor; intros H; unfold delimiter in H;
    repeat (apply elem_of_cons in H as [H|H]; [discriminate|]);
    by apply elem_of_nil in H.
Qed.

(** X6: the argument of [print] may follow it after any non-empty run of
    spaces, tabs and newlines, with delimiters before and after the pair:
    the one line [Printed: x\n] is written and no error. *)
Theorem argument_after_whitespace ds0 ds x ds1 :
  Forall (λ c, c ∈ delimiter) ds0 →
  Forall (λ c, c ∈ delimiter) ds → ds ≠ [] →
  Forall (λ c, c ∈ delimiter) ds1 →
  x ≠ [] → Forall (λ c, (c ∉ delimiter) ∧ c ≠ NUL) x →
  length ds0 + 5 + length ds + length x + length ds1 < MAX_CODE_SIZE →
  interpret ((ds0 ++ lit "print" ++ ds ++ x ++ ds1) ++ [NUL]) =
    Done (mkOutput (printed_line x) []).
Proof.
  intros H0 Hds Hne H1 Hx Hxc Hlen.
  assert (Forall (λ c, c ∉ delimiter) x) as Hxd.
  { eapply Forall_impl; [exact Hxc|]. by intros c [? _]. }
  assert (∀ l, Forall (λ c, c ∈ delimiter) l → NUL ∉ l) as Hdn.
  { intros l Hl Hin. rewrite Forall_forall in Hl.
    by apply (delimiter_not_NUL NUL (Hl _ Hin)). }
  rewrite interpret_text.
  - rewrite (tokens_delims ds0 _ H0).
    destruct ds as [|d ds]; [done|]. apply Forall_cons in Hds as [Hd Hds].
    cbn [app].
    rewrite (tokens_word_delim (lit "print") d (ds ++ x ++ ds1)
               ltac:(done) print_word Hd).
    rewrite (tokens_delims ds _ Hds).
    assert (tokens (x ++ ds1) = [x]) as ->.
    { destruct ds1 as [|d1 ds1]; [rewrite app_nil_r; by apply tokens_last_word|].
      apply Forall_cons in H1 as [Hd1 H1].
      rewrite (tokens_word_delim x d1 ds1 Hx Hxd Hd1).
      rewrite <-(app_nil_r ds1). by rewrite (tokens_delims ds1 [] H1). }
    cbn [run_tokens]. by rewrite decide_True.
  - rewrite !not_elem_of_app. repeat split; auto using print_no_NUL.
    intros Hin. rewrite Forall_forall in Hxc. by destruct (Hxc _ Hin).
  - rewrite !length_app. cbn [lit list_ascii_of_string length]. lia.
Qed.

Lemma argument_after_whitespace_witness :
  interpret ((["009"] ++ lit "print" ++ [newline; " "] ++ lit "hello"
              ++ [newline]) ++ [NUL]) =
    Done (mkOutput (printed_line (lit "hello")) []).
Proof.
  assert (∀ c, c ∈ [" "; "009"; "010"] → c ∈ delimiter) as Hd by done.
  apply (argument_after_whitespace ["009"] [newline; " "] (lit "hello") [newline]).
  - repeat constructor; apply Hd; rewrite !elem_of_cons; auto.
  - repeat constructor; apply Hd; rewrite !elem_of_cons; auto.
  - done.
  - repeat constructor; apply Hd; rewrite !elem_of_cons; auto.
  - done.
  - cbn. repeat constructor; try done; intros H; unfold delimiter in H;
      repeat (apply elem_of_cons in H as [H|H]; [discriminate|]);
      by apply elem_of_nil in H.
  - cbn [lit list_ascii_of_string length]. unfold MAX_CODE_SIZE. lia.
Defined.

(** X7: a [print] followed only by delimiters up to the end of the
    string, whatever delimiters precede it, writes the missing-argument
    message and nothing on standard output. *)
Theorem print_then_whitespace ds0 ds :
  Forall (λ c, c ∈ delimiter) ds0 →
  Forall (λ c, c ∈ delimiter) ds →
  length ds0 + 5 + length ds < MAX_CODE_SIZE →
  interpret ((ds0 ++ lit "print" ++ ds) ++ [NUL]) =
    Done (mkOutput [] missing_argument).
Proof.
  intros H0 Hds Hlen.
  assert (∀ l, Forall (λ c, c ∈ delimiter) l → NUL ∉ l) as Hdn.
  { intros l Hl Hin. rewrite Forall_forall in Hl.
    by apply (delimiter_not_NUL NUL (Hl _ Hin)). }
  rewrite interpret_text.
  - rewrite (tokens_delims ds0 _ H0).
    assert (tokens (lit "print" ++ ds) = [lit "print"]) as ->.
    { destruct ds as [|d ds]; [by vm_compute|].
      apply Forall_cons in Hds as [Hd Hds].
      rewrite (tokens_word_delim (lit "print") d ds ltac:(done) print_word Hd).
      rewrite <-(app_nil_r ds). by rewrite (tokens_delims ds [] Hds). }
    cbn [run_tokens]. by rewrite decide_True.
  - rewrite !not_elem_of_app. repeat split; auto using print_no_NUL.
  - rewrite !length_app. cbn [lit list_ascii_of_string length]. lia.
Qed.

Lemma print_then_whitespace_witness :
  interpret (([newline] ++ lit "print" ++ [" "; "009"]) ++ [NUL]) =
    Done (mkOutput [] missing_argument).
Proof.
  assert (∀ c, c ∈ [" "; "009"; "010"] → c ∈ delimiter) as Hd by done.
  apply (print_then_whitespace [newline] [" "; "009"]).
  - repeat constructor; apply Hd; rewrite !elem_of_cons; auto.
  - repeat constructor; apply Hd; rewrite !elem_of_cons; auto.
  - cbn [length]. unfold MAX_CODE_SIZE. lia.
Defined.

(** X8: spaces, tabs and newlines are interchangeable: replacing one
    delimiter of the input by another leaves the result of [interpret]
    unchanged, whatever the length of the input. *)
Theorem delimiters_interchangeable a d d' b :
  d ∈ delimiter → d' ∈ delimiter → NUL ∈ b →
  interpret (a ++ d :: b) = interpret (a ++ d' :: b).
Proof.
  intros Hd Hd' Hb.
  assert (∀ e, NUL ∈ a ++ e :: b) as Hin.
  { intros e. apply elem_of_app. right. by right. }
  rewrite !interpret_spec by done. do 2 f_equal. unfold scanned.
  destruct (decide (NUL ∈ a)) as [Ha|Ha]; [by rewrite !text_app_in|].
  rewrite !text_app_notin by done. cbn [text].
  rewrite !decide_False by by apply delimiter_not_NUL.
  rewrite !take_app.
  destruct (MAX_CODE_SIZE - 1 - length a) as [|k]; [done|].
  cbn [take]. by rewrite !tokens_app_delim.
Qed.

Lemma delimiters_interchangeable_witness :
  interpret (lit "print" ++ " " :: lit "x" ++ [NUL]) =
    interpret (lit "print" ++ newline :: lit "x" ++ [NUL]).
Proof.
  apply delimiters_interchangeable.
  - unfold delimiter. by left.
  - unfold delimiter. right. right. by left.
  - apply NUL_in_buffer.
Defined.

(** ** Further properties of [main] *)


(** X10: when the file opens, the buffer is granted and [fread] can
    deliver at least the measured size, [main] hands [interpret] exactly
    the first [file_size] bytes followed by NUL, so bytes that arrived
    after the size was measured are not read; it exits with code 0 and
    its two streams are those of [interpret]. *)
Theorem main_interprets_measured w prog name f :
  fopen w name = Some f →
  malloc w (file_size f + 1) = true →
  file_size f ≤ length (file_data f) →
  ∃ o,
    interpret (take (file_size f) (file_data f) ++ [NUL]) = Done o
    ∧ main w [prog; name] =
        Done (mkExit 0 (on_stdout o) (on_stderr o)
                [Fopen name true; Malloc (file_size f + 1) true;
                 Fread (file_size f) (file_size f);
                 Interpret (take (file_size f) (file_data f) ++ [NUL]);
                 Free; Fclose]).
Proof.
  intros Hopen Hmalloc Hsize. eexists.
  split; [by apply interpret_spec, NUL_in_buffer|].
  unfold main. cbn [length lookup list_lookup].
  rewrite decide_False by (intros H; by apply H).
  rewrite Hopen. cbv zeta. rewrite Hmalloc. cbn [negb].
  rewrite length_take, Nat.min_l by done.
  rewrite decide_False by (intros H; by apply H).
  by rewrite (interpret_spec _ (NUL_in_buffer _)).
Qed.

Lemma main_interprets_measured_witness :
  ∃ o,
    interpret (take 7 (lit "print a print b") ++ [NUL]) = Done o
    ∧ main (shrinking (lit "f") (lit "print a print b") 7)
           [lit "interpreter"; lit "f"] =
        Done (mkExit 0 (on_stdout o) (on_stderr o)
                [Fopen (lit "f") true; Malloc 8 true; Fread 7 7;
                 Interpret (take 7 (lit "print a print b") ++ [NUL]);
                 Free; Fclose]).
Proof.
  apply (main_interprets_measured
           (shrinking (lit "f") (lit "print a print b") 7)
           (lit "interpreter") (lit "f") (mkFile 7 (lit "print a print b")));
    [done|done|].
  cbn [file_size file_data lit list_ascii_of_string length]. lia.
Defined.
